(** * cmp: byte-wise comparison of two sources (u-root, cmds/cmp/cmp.go)

    A shallow embedding of the command and the properties its description
    states about it.  The program starts one reader goroutine per source;
    each sends the bytes of its source on a buffered channel and closes the
    channel when [ReadByte] fails.  The main goroutine receives one byte from
    each channel per iteration.  A receive on a closed, drained channel
    yields the zero value of the element type, here the byte 0, so a channel
    is modelled by the list of bytes that were sent on it and a receive on
    the empty list yields 0.  Each channel has one producer and one consumer
    and the consumer blocks until a value is there, so the values received
    do not depend on the scheduling.  The calls [fmt.Fprintf] are taken to be
    those of package fmt of the Go library. *)

From Stdlib Require Import ZArith List Bool Lia.
From Stdlib Require Import Strings.Byte Strings.Ascii Strings.String.
From Stdlib Require Import Numbers.DecimalString.
Import ListNotations.

Local Open Scope Z_scope.

(** ** Formatting verbs of package fmt used by the program *)

Module Fmt.

Definition newline : string := String (ascii_of_nat 10) EmptyString.

(** [%d] on a signed integer: decimal digits, a minus sign when negative. *)
Definition verb_d (z : Z) : string := NilZero.string_of_int (Z.to_int z).

Fixpoint repeat_char (c : ascii) (n : nat) : string :=
  match n with
  | O => EmptyString
  | S n' => String c (repeat_char c n')
  end.

(** A width pads on the left with spaces; longer text is left as it is. *)
Definition pad_left (width : nat) (s : string) : string :=
  (repeat_char " "%char (width - String.length s) ++ s)%string.

(** [%8d] *)
Definition verb_8d (z : Z) : string := pad_left 8 (verb_d z).

Definition digit (u : N) : ascii := ascii_of_N (48 + u).

(** The digit loop of the integer formatter in base 8: the low three bits
    give a digit while the value is at least 8, written right to left. *)
Fixpoint octal_loop (fuel : nat) (u : N) (buf : string) : string :=
  match fuel with
  | O => String (digit u) buf
  | S fuel' =>
      if (8 <=? u)%N
      then octal_loop fuel' (N.shiftr u 3) (String (digit (N.land u 7)) buf)
      else String (digit u) buf
  end.

Definition octal_digits (u : N) : string :=
  octal_loop (N.to_nat (N.size u)) u EmptyString.

(** A precision on an integer is the minimum number of digits. *)
Definition zero_extend (prec : nat) (s : string) : string :=
  (repeat_char "0"%char (prec - String.length s) ++ s)%string.

(** The flag [#] in base 8 puts a 0 in front unless one leads already. *)
Definition sharp_octal (s : string) : string :=
  match s with
  | String "0"%char _ => s
  | _ => String "0"%char s
  end.

(** [%#.2o] on a byte *)
Definition verb_sharp_2o (b : byte) : string :=
  sharp_octal (zero_extend 2 (octal_digits (Byte.to_N b))).

End Fmt.

(** ** Machine integers *)

Definition max_int64 : Z := 2 ^ 63 - 1.

(** Two's complement wrap-around of an int64. *)
Definition wrap64 (z : Z) : Z := (z + 2 ^ 63) mod 2 ^ 64 - 2 ^ 63.

(** [x++] on an int64 *)
Definition incr64 (z : Z) : Z := wrap64 (z + 1).

(** ** The command line flags and what the process leaves behind *)

(** The three flag variables [-l], [-L] and [-s]. *)
Record flags := { long : bool; line : bool; silent : bool }.

(** What is written to standard error: by [fmt.Fprintf(os.Stderr, ...)], or
    through package log, which puts its time stamp in front of the text. *)
Inductive event :=
| Fprintf (text : string)
| Logged (text : string).

Record result := { exit_code : Z; stderr : list event }.

(** ** Channels *)

Definition chan := list byte.

(** [<-c]: the next byte sent, or the zero byte once the channel is closed
    and drained. *)
Definition recv (c : chan) : byte * chan :=
  match c with
  | [] => (x00, [])
  | b :: c' => (b, c')
  end.

(** ** The comparison loop of main *)

Record state := {
  c0 : chan;
  c1 : chan;
  lineno : Z;
  charno : Z;
  printed : list event
}.

Definition fname (fnames : list string) (i : nat) : string :=
  nth i fnames EmptyString.

Definition differ_line_msg (fnames : list string) (ch ln : Z) : string :=
  (fname fnames 0 ++ " " ++ fname fnames 1 ++ " differ: char " ++ Fmt.verb_d ch
     ++ " line " ++ Fmt.verb_d ln ++ Fmt.newline)%string.

Definition differ_msg (fnames : list string) (ch : Z) : string :=
  (fname fnames 0 ++ " " ++ fname fnames 1 ++ " differ: char " ++ Fmt.verb_d ch
     ++ Fmt.newline)%string.

Definition eof_msg (fnames : list string) (i : nat) : string :=
  ("EOF on " ++ fname fnames i ++ Fmt.newline)%string.

Definition long_msg (ch : Z) (b1 b2 : byte) : string :=
  (Fmt.verb_8d ch ++ " " ++ Fmt.verb_sharp_2o b1 ++ " " ++ Fmt.verb_sharp_2o b2
     ++ Fmt.newline)%string.

Definition exit_with (code : Z) (out : list event) : state + result :=
  inr {| exit_code := code; stderr := out |}.

(** The statements from the label [skip] to the end of the loop body. *)
Definition skip (b1 b2 : byte) (rest0 rest1 : chan) (ln ch : Z)
    (out : list event) : state + result :=
  let ch' := incr64 ch in
  let ln' := if Byte.eqb b1 x0a then incr64 ln else ln in
  if Byte.eqb b1 x00 && Byte.eqb b2 x00
  then exit_with 0 out
  else inl {| c0 := rest0; c1 := rest1; lineno := ln'; charno := ch';
              printed := out |}.

(** One pass through the body of the [for] loop. *)
Definition iteration (fl : flags) (fnames : list string) (st : state)
    : state + result :=
  let (b1, rest0) := recv (c0 st) in
  let (b2, rest1) := recv (c1 st) in
  let ln := lineno st in
  let ch := charno st in
  let out := printed st in
  if negb (Byte.eqb b1 b2) then
    if silent fl then exit_with 1 out
    else if line fl then
      exit_with 1 (out ++ [Fprintf (differ_line_msg fnames ch ln)])
    else if long fl then
      if Byte.eqb b1 x00 then exit_with 1 (out ++ [Fprintf (eof_msg fnames 0)])
      else if Byte.eqb b2 x00 then
        exit_with 1 (out ++ [Fprintf (eof_msg fnames 1)])
      else skip b1 b2 rest0 rest1 ln ch (out ++ [Fprintf (long_msg ch b1 b2)])
    else exit_with 1 (out ++ [Fprintf (differ_msg fnames ch)])
  else skip b1 b2 rest0 rest1 ln ch out.

(** [n] passes through the loop body, or fewer when the process exits. *)
Fixpoint iterate (fl : flags) (fnames : list string) (n : nat) (st : state)
    : state + result :=
  match n with
  | O => inl st
  | S n' =>
      match iteration fl fnames st with
      | inl st' => iterate fl fnames n' st'
      | inr r => inr r
      end
  end.

(** The state in which the loop is entered. *)
Definition init (ch0 ch1 : chan) : state :=
  {| c0 := ch0; c1 := ch1; lineno := 1; charno := 1; printed := [] |}.

(** The loop run with fuel: [None] says it is still running when the fuel is
    used up. *)
Definition run (fl : flags) (fnames : list string) (fuel : nat) (st : state)
    : option result :=
  match iterate fl fnames fuel st with
  | inr r => Some r
  | inl _ => None
  end.

(** The loop on two channels.  One pass more than the longer channel holds
    bytes is enough, see [compare_loop_total]. *)
Definition compare_loop (fl : flags) (fnames : list string) (ch0 ch1 : chan)
    : option result :=
  run fl fnames (S (Nat.max (List.length ch0) (List.length ch1))) (init ch0 ch1).

(** ** Offsets: strconv.ParseInt(s, 0, 64) *)

Module Strconv.

Inductive num_error := ErrSyntax | ErrRange.

Definition min_int64 : Z := - 2 ^ 63.

(** The value of a digit character: 0-9, then letters of either case. *)
Definition digit_val (c : ascii) : option Z :=
  let n := Z.of_N (N_of_ascii c) in
  if (48 <=? n) && (n <=? 57) then Some (n - 48)
  else if (97 <=? n) && (n <=? 122) then Some (n - 97 + 10)
  else if (65 <=? n) && (n <=? 90) then Some (n - 65 + 10)
  else None.

Fixpoint digits (base : Z) (s : string) (acc : Z) : option Z :=
  match s with
  | EmptyString => Some acc
  | String c s' =>
      match digit_val c with
      | Some v => if v <? base then digits base s' (acc * base + v) else None
      | None => None
      end
  end.

(** Modelled from the spec: the base that strconv.ParseInt of the Go
    library, which is not part of the repository's sources, takes at base 0
    from the prefix of the digits: [0x] hexadecimal, a leading [0] octal,
    anything else decimal. *)
Definition magnitude (s : string) : option Z :=
  match s with
  | EmptyString => None
  | String "0"%char (String x rest) =>
      if Ascii.eqb x "x"%char || Ascii.eqb x "X"%char
      then match rest with
           | EmptyString => None
           | _ => digits 16 rest 0
           end
      else digits 8 s 0
  | String "0"%char EmptyString => digits 8 s 0
  | _ => digits 10 s 0
  end.

(** Modelled from the spec: strconv.ParseInt of the Go library, which is
    not part of the repository's sources.  The description gives its
    behaviour at base 0: offsets "that begin with 0x are hexadecimal; with
    0, octal; with anything else, decimal", and a token that does not parse
    is an error.  An optional sign comes first, and a value outside the
    64-bit signed range is an error as well. *)
Definition ParseInt (s : string) : Z + num_error :=
  match s with
  | EmptyString => inr ErrSyntax
  | String c rest =>
      let neg := Ascii.eqb c "-"%char in
      let body := if Ascii.eqb c "+"%char || neg then rest else s in
      match magnitude body with
      | None => inr ErrSyntax
      | Some u =>
          let v := if neg then - u else u in
          if (min_int64 <=? v) && (v <=? max_int64) then inl v
          else inr ErrRange
      end
  end.

End Strconv.

(** ** Sources and the reader goroutine *)

(** The error with which [ReadByte] ends the reading of a source. *)
Inductive read_error :=
| EOF
| ReadFailure (text : string).

(** An opened source as an [io.ReadSeeker]: the bytes that can be read from
    its start, the error that [ReadByte] returns after the last of them, and
    the error of [Seek] when the source cannot seek (a pipe). *)
Record source := {
  data : list byte;
  stop : read_error;
  seek_failure : option string
}.

(** What a call of [emit] comes to: a fatal log message, or the bytes sent on
    the channel before it was closed, with the error returned. *)
Inductive emitted :=
| Fatal (text : string)
| Sent (c : chan) (err : read_error).

(** The [for] loop of emit: every byte read is sent; when [ReadByte] returns
    an error, whichever it is, the channel is closed and the error
    returned. *)
Fixpoint read_loop (unread : list byte) (last : read_error) : chan * read_error :=
  match unread with
  | [] => ([], last)
  | b :: rest => let (c, err) := read_loop rest last in (b :: c, err)
  end.

Definition emit (rs : source) (offset : Z) : emitted :=
  if 0 <? offset then
    match seek_failure rs with
    | Some text => Fatal text
    | None =>
        let (c, err) := read_loop (skipn (Z.to_nat offset) (data rs)) (stop rs) in
        Sent c err
    end
  else
    let (c, err) := read_loop (data rs) (stop rs) in Sent c err.

(** ** The environment of a run *)

(** [os.Open] by name (the source, or the text of the error), standard
    input, and the text that [%v] prints for the error of [ParseInt] on a
    token. *)
Record world := {
  open : string -> source + string;
  stdin : source;
  num_error_text : string -> Strconv.num_error -> string
}.

Definition openFile (w : world) (name : string) : source + string :=
  if String.eqb name "-" then inl (stdin w) else open w name.

(** ** main *)

Definition returns (out : list event) : option result :=
  Some {| exit_code := 0; stderr := out |}.

(** [log.Fatalf]: the message, then exit status 1. *)
Definition fatalf (text : string) : option result :=
  Some {| exit_code := 1; stderr := [Logged text] |}.

Definition bad_offset (w : world) (which tok : string) (e : Strconv.num_error)
    : string :=
  ("bad offset" ++ which ++ ": " ++ tok ++ ": " ++ num_error_text w tok e
     ++ Fmt.newline)%string.

(** The [switch] on the number of arguments: the two offsets, or the result
    with which main ends there. *)
Definition offsets (w : world) (fnames : list string)
    : (Z * Z) + option result :=
  match fnames with
  | [_; _] => inl (0, 0)
  | [_; _; t1] =>
      match Strconv.ParseInt t1 with
      | inr e => inr (returns [Fprintf (bad_offset w "1" t1 e)])
      | inl o1 => inl (o1, 0)
      end
  | [_; _; t1; t2] =>
      match Strconv.ParseInt t1 with
      | inr e => inr (returns [Logged (bad_offset w "1" t1 e)])
      | inl o1 =>
          match Strconv.ParseInt t2 with
          | inr e => inr (returns [Fprintf (bad_offset w "2" t2 e)])
          | inl o2 => inl (o1, o2)
          end
      end
  | _ =>
      inr (fatalf ("expected two filenames (and one to two optional offsets), got "
                     ++ Fmt.verb_d (Z.of_nat (List.length fnames))))
  end.

Definition open_failed (name text : string) : string :=
  ("Failed to open " ++ name ++ ": " ++ text)%string.

(** main.  [None] would say that the comparison never ends, which
    [compare_loop_total] excludes.  Each name is opened on its own, so the
    two readers are independent (two readers on standard input, with both
    names "-", would share it and are not described).  Where two fatal
    conditions race (an open failure and a seek failure in a reader that
    runs already) the result carries the message of one of them; the exit
    status is 1 for each. *)
Definition main (fl : flags) (fnames : list string) (w : world)
    : option result :=
  match offsets w fnames with
  | inr r => r
  | inl (off0, off1) =>
      match openFile w (fname fnames 0) with
      | inr text => fatalf (open_failed (fname fnames 0) text)
      | inl f0 =>
          match openFile w (fname fnames 1) with
          | inr text => fatalf (open_failed (fname fnames 1) text)
          | inl f1 =>
              match emit f0 off0, emit f1 off1 with
              | Fatal text, _ => fatalf text
              | _, Fatal text => fatalf text
              | Sent ch0 _, Sent ch1 _ => compare_loop fl fnames ch0 ch1
              end
          end
      end
  end.

(** The reporting mode that the flags select, in the order in which the loop
    tests them. *)
Inductive mode := Quiet | LineOnly | Long | Default.

Definition mode_of (fl : flags) : mode :=
  if silent fl then Quiet
  else if line fl then LineOnly
  else if long fl then Long
  else Default.

(** ** Vocabulary of the properties *)

(** [n] increments of a counter. *)
Definition bump (n : nat) (z : Z) : Z := Nat.iter n incr64 z.

(** The number of newline bytes in a list. *)
Definition newlines (p : list byte) : nat :=
  List.length (filter (fun b => Byte.eqb b x0a) p).

(** A byte other than the zero byte. *)
Definition nonzero (b : byte) : Prop := b <> x00.

(** The lines that long mode prints for two runs of bytes, the first pair
    having char number [ch]: one line per position where the bytes differ. *)
Fixpoint listing (ch : Z) (p1 p2 : list byte) : list event :=
  match p1, p2 with
  | b1 :: t1, b2 :: t2 =>
      (if Byte.eqb b1 b2 then [] else [Fprintf (long_msg ch b1 b2)])
        ++ listing (incr64 ch) t1 t2
  | _, _ => []
  end.



(** Two channels deliver the same bytes at the first [n] receives. *)
Definition same_received (n : nat) (a a' : list byte) : Prop :=
  forall i, (i < n)%nat -> nth i a x00 = nth i a' x00.

(** ** Concrete inputs *)

(** The bytes of a text. *)
Definition src (s : string) : list byte := list_byte_of_string s.

(** No flag, and each of the flags [-l], [-L] and [-s] alone. *)
Definition flags_default : flags :=
  {| long := false; line := false; silent := false |}.
Definition flags_l : flags := {| long := true; line := false; silent := false |}.
Definition flags_L : flags := {| long := false; line := true; silent := false |}.
Definition flags_s : flags := {| long := false; line := false; silent := true |}.

Definition two_names : list string := ["f1"; "f2"]%string.

(** A regular file with the given text. *)
Definition file (s : string) : source :=
  {| data := src s; stop := EOF; seek_failure := None |}.

(** A source whose reading fails after "hello". *)
Definition failing_after_hello : source :=
  {| data := src "hello"; stop := ReadFailure "input/output error";
     seek_failure := None |}.

(** An environment with the named files, and a pipe as standard input. *)
Definition world_of (files : list (string * source)) : world :=
  {| open := fun name =>
       match find (fun p => String.eqb (fst p) name) files with
       | Some p => inl (snd p)
       | None => inr "no such file or directory"%string
       end;
     stdin := {| data := []; stop := EOF;
                 seek_failure := Some "illegal seek"%string |};
     num_error_text := fun tok e =>
       match e with
       | Strconv.ErrSyntax => "invalid syntax"%string
       | Strconv.ErrRange => "value out of range"%string
       end |}.

(** * Properties *)

(** ** Bytes and counters *)

Lemma byte_eqb_refl (b : byte) : Byte.eqb b b = true.
Proof. now apply Byte.byte_dec_lb. Qed.

Lemma byte_eqb_neq (a b : byte) : a <> b -> Byte.eqb a b = false.
Proof.
  intros Hne. destruct (Byte.eqb a b) eqn:E; [|reflexivity].
  now apply Byte.byte_dec_bl in E.
Qed.

Lemma byte_eqb_true_iff (a b : byte) : Byte.eqb a b = true <-> a = b.
Proof. split; [apply Byte.byte_dec_bl | apply Byte.byte_dec_lb]. Qed.



Lemma bump_S_inner (n : nat) (z : Z) : bump (S n) z = bump n (incr64 z).
Proof. unfold bump. now rewrite Nat.iter_succ_r. Qed.




(** ** One pass through the loop body *)

Lemma iteration_equal fl fnames b t0 t1 ln ch out :
  b <> x00 ->
  iteration fl fnames
    {| c0 := b :: t0; c1 := b :: t1; lineno := ln; charno := ch; printed := out |}
  = inl {| c0 := t0; c1 := t1;
           lineno := (if Byte.eqb b x0a then incr64 ln else ln);
           charno := incr64 ch; printed := out |}.
Proof.
  intros Hb. unfold iteration, skip. cbn [recv c0 c1 lineno charno printed].
  rewrite byte_eqb_refl. cbn [negb].
  rewrite (byte_eqb_neq b x00 Hb). reflexivity.
Qed.

Lemma iteration_listed fl fnames b1 b2 t0 t1 ln ch out :
  mode_of fl = Long -> b1 <> b2 -> b1 <> x00 -> b2 <> x00 ->
  iteration fl fnames
    {| c0 := b1 :: t0; c1 := b2 :: t1; lineno := ln; charno := ch; printed := out |}
  = inl {| c0 := t0; c1 := t1;
           lineno := (if Byte.eqb b1 x0a then incr64 ln else ln);
           charno := incr64 ch;
           printed := out ++ [Fprintf (long_msg ch b1 b2)] |}.
Proof.
  intros Hm Hne H1 H2. unfold mode_of in Hm.
  unfold iteration, skip. cbn [recv c0 c1 lineno charno printed].
  rewrite (byte_eqb_neq b1 b2 Hne). cbn [negb].
  destruct (silent fl); [discriminate|].
  destruct (line fl); [discriminate|].
  destruct (long fl); [|discriminate].
  rewrite (byte_eqb_neq b1 x00 H1), (byte_eqb_neq b2 x00 H2). reflexivity.
Qed.

(** A pass that does not exit consumed one position of each channel, ran
    both counters as the source says, and did not see two zero bytes. *)
Lemma iteration_continues fl fnames st st' :
  iteration fl fnames st = inl st' ->
  c0 st' = tl (c0 st) /\ c1 st' = tl (c1 st) /\
  charno st' = incr64 (charno st) /\
  lineno st' = (if Byte.eqb (hd x00 (c0 st)) x0a
                then incr64 (lineno st) else lineno st) /\
  ~ (hd x00 (c0 st) = x00 /\ hd x00 (c1 st) = x00).
Proof.
  destruct st as [a b ln ch out]. unfold iteration, skip, exit_with.
  cbn [c0 c1 lineno charno printed].
  assert (Ha : recv a = (hd x00 a, tl a)) by (destruct a; reflexivity).
  assert (Hb : recv b = (hd x00 b, tl b)) by (destruct b; reflexivity).
  rewrite Ha, Hb. clear Ha Hb.
  set (b1 := hd x00 a). set (b2 := hd x00 b).
  intros H.
  assert (Hz : Byte.eqb b1 x00 && Byte.eqb b2 x00 = false).
  { destruct (Byte.eqb b1 x00 && Byte.eqb b2 x00) eqn:E; [|reflexivity].
    exfalso. apply andb_prop in E. destruct E as [E1 E2].
    apply byte_eqb_true_iff in E1, E2.
    rewrite E1, E2 in H. cbn in H. discriminate. }
  rewrite Hz in H.
  assert (Hnz : ~ (b1 = x00 /\ b2 = x00)).
  { intros [E1 E2]. rewrite E1, E2 in Hz. discriminate. }
  destruct (negb (Byte.eqb b1 b2)), (silent fl), (line fl), (long fl),
    (Byte.eqb b1 x00), (Byte.eqb b2 x00);
    try discriminate; injection H as <-; cbn; auto.
Qed.

(** ** Running the loop *)

Lemma iterate_add fl fnames n m st :
  iterate fl fnames (n + m) st =
  match iterate fl fnames n st with
  | inl st' => iterate fl fnames m st'
  | inr r => inr r
  end.
Proof.
  revert st. induction n as [|n IH]; intros st; [reflexivity|].
  cbn [Nat.add iterate]. destruct (iteration fl fnames st); auto.
Qed.


(** Once the process has exited, more fuel changes nothing. *)
Lemma iterate_exit_mono fl fnames n m st r :
  (n <= m)%nat -> iterate fl fnames n st = inr r -> iterate fl fnames m st = inr r.
Proof.
  intros Hle H. replace m with (n + (m - n))%nat by lia.
  rewrite iterate_add, H. reflexivity.
Qed.

Lemma iterate_exit_unique fl fnames n m st r r' :
  iterate fl fnames n st = inr r -> iterate fl fnames m st = inr r' -> r = r'.
Proof.
  intros H H'. destruct (Nat.le_ge_cases n m) as [Hle|Hle].
  - rewrite (iterate_exit_mono _ _ _ _ _ _ Hle H) in H'. now injection H'.
  - rewrite (iterate_exit_mono _ _ _ _ _ _ Hle H') in H. now injection H.
Qed.

(** The loop exits within one pass more than the longer channel holds. *)
Lemma iterate_exits fl fnames n st :
  (Nat.max (List.length (c0 st)) (List.length (c1 st)) <= n)%nat ->
  exists r, iterate fl fnames (S n) st = inr r.
Proof.
  revert st. induction n as [|n IH]; intros st Hlen.
  - destruct st as [a b ln ch out]. cbn [c0 c1] in Hlen.
    destruct a, b; cbn [List.length] in Hlen; try lia.
    cbn. eexists. reflexivity.
  - cbn [iterate]. destruct (iteration fl fnames st) as [st'|r] eqn:E.
    + apply iteration_continues in E. destruct E as (E0 & E1 & _).
      apply IH. rewrite E0, E1.
      destruct (c0 st), (c1 st); cbn [tl List.length] in *; lia.
    + eexists. reflexivity.
Qed.

(** The comparison always ends with a result. *)
Theorem compare_loop_total fl fnames ch0 ch1 :
  exists r, compare_loop fl fnames ch0 ch1 = Some r.
Proof.
  unfold compare_loop, run.
  destruct (iterate_exits fl fnames
              (Nat.max (List.length ch0) (List.length ch1)) (init ch0 ch1))
    as [r Hr]; [reflexivity|].
  rewrite Hr. eauto.
Qed.

(** An exit found with any amount of fuel is the result of the loop. *)
Lemma compare_loop_exit fl fnames ch0 ch1 n r :
  iterate fl fnames n (init ch0 ch1) = inr r ->
  compare_loop fl fnames ch0 ch1 = Some r.
Proof.
  intros H. destruct (compare_loop_total fl fnames ch0 ch1) as [r' Hr'].
  rewrite Hr'. unfold compare_loop, run in Hr'.
  destruct (iterate fl fnames (S _) (init ch0 ch1)) as [|r''] eqn:E;
    [discriminate|].
  injection Hr' as ->. f_equal. eapply iterate_exit_unique; eauto.
Qed.

(** ** Prefixes through which the loop keeps running *)

Lemma newlines_cons (b : byte) (p : list byte) :
  newlines (b :: p) = if Byte.eqb b x0a then S (newlines p) else newlines p.
Proof. unfold newlines. cbn [filter]. now destruct (Byte.eqb b x0a). Qed.

Lemma bump_newlines_cons (b : byte) (p : list byte) (ln : Z) :
  bump (newlines p) (if Byte.eqb b x0a then incr64 ln else ln)
  = bump (newlines (b :: p)) ln.
Proof.
  rewrite newlines_cons. destruct (Byte.eqb b x0a); [|reflexivity].
  now rewrite bump_S_inner.
Qed.

(** Through a common prefix free of zero bytes the loop runs on in every
    mode and prints nothing. *)
Lemma iterate_common_prefix fl fnames p r1 r2 :
  Forall nonzero p ->
  forall ln ch out,
  iterate fl fnames (List.length p)
    {| c0 := p ++ r1; c1 := p ++ r2; lineno := ln; charno := ch; printed := out |}
  = inl {| c0 := r1; c1 := r2; lineno := bump (newlines p) ln;
           charno := bump (List.length p) ch; printed := out |}.
Proof.
  induction 1 as [|b p Hb Hp IH]; intros ln ch out; [reflexivity|].
  cbn [List.length app iterate].
  rewrite iteration_equal by exact Hb.
  rewrite IH, bump_newlines_cons, <- bump_S_inner. reflexivity.
Qed.

(** In long mode the loop runs on through positions where the bytes differ,
    as long as none of the two bytes is zero, and prints the listing. *)
Lemma iterate_listing fl fnames p1 :
  mode_of fl = Long ->
  forall p2 r1 r2 ln ch out,
  List.length p1 = List.length p2 -> Forall nonzero p1 -> Forall nonzero p2 ->
  iterate fl fnames (List.length p1)
    {| c0 := p1 ++ r1; c1 := p2 ++ r2; lineno := ln; charno := ch; printed := out |}
  = inl {| c0 := r1; c1 := r2; lineno := bump (newlines p1) ln;
           charno := bump (List.length p1) ch;
           printed := out ++ listing ch p1 p2 |}.
Proof.
  intros Hm. induction p1 as [|b1 p1 IH]; intros p2 r1 r2 ln ch out Hlen H1 H2.
  - destruct p2; [|discriminate]. cbn. now rewrite app_nil_r.
  - destruct p2 as [|b2 p2]; [discriminate|].
    injection Hlen as Hlen.
    apply Forall_cons_iff in H1, H2. destruct H1 as [Hb1 H1], H2 as [Hb2 H2].
    cbn [List.length app iterate listing].
    destruct (Byte.byte_eq_dec b1 b2) as [<-|Hne].
    + rewrite iteration_equal by exact Hb1.
      rewrite IH by assumption.
      rewrite byte_eqb_refl, bump_newlines_cons, <- bump_S_inner. reflexivity.
    + rewrite iteration_listed by assumption.
      rewrite IH by assumption.
      rewrite (byte_eqb_neq _ _ Hne), bump_newlines_cons, <- bump_S_inner.
      now rewrite <- app_assoc.
Qed.

(** ** A pass at a position where the bytes received differ *)

Lemma recv_hd_tl (c : chan) : recv c = (hd x00 c, tl c).
Proof. now destruct c. Qed.

Lemma iteration_differ fl fnames a b ln ch out :
  hd x00 a <> hd x00 b ->
  iteration fl fnames
    {| c0 := a; c1 := b; lineno := ln; charno := ch; printed := out |}
  = match mode_of fl with
    | Quiet => exit_with 1 out
    | LineOnly => exit_with 1 (out ++ [Fprintf (differ_line_msg fnames ch ln)])
    | Default => exit_with 1 (out ++ [Fprintf (differ_msg fnames ch)])
    | Long =>
        if Byte.eqb (hd x00 a) x00
        then exit_with 1 (out ++ [Fprintf (eof_msg fnames 0)])
        else if Byte.eqb (hd x00 b) x00
        then exit_with 1 (out ++ [Fprintf (eof_msg fnames 1)])
        else skip (hd x00 a) (hd x00 b) (tl a) (tl b) ln ch
               (out ++ [Fprintf (long_msg ch (hd x00 a) (hd x00 b))])
    end.
Proof.
  intros Hne. unfold iteration, mode_of.
  cbn [c0 c1 lineno charno printed]. rewrite !recv_hd_tl.
  rewrite (byte_eqb_neq _ _ Hne). cbn [negb].
  destruct (silent fl), (line fl), (long fl); reflexivity.
Qed.

(** A pass at a position where both bytes received are zero. *)
Lemma iteration_both_zero fl fnames a b ln ch out :
  hd x00 a = x00 -> hd x00 b = x00 ->
  iteration fl fnames
    {| c0 := a; c1 := b; lineno := ln; charno := ch; printed := out |}
  = exit_with 0 out.
Proof.
  intros Ha Hb. unfold iteration, skip.
  cbn [c0 c1 lineno charno printed]. rewrite !recv_hd_tl, Ha, Hb. reflexivity.
Qed.

(** ** Positions in the sources *)






(** ** The claims *)





(** ** States reached while the loop runs *)










(** ** Strict prefixes *)




(** ** Long mode *)





(** The octal digits printed for a byte denote the byte. *)
Lemma octal_digits_value (b : byte) :
  Strconv.digits 8 (Fmt.octal_digits (Byte.to_N b)) 0
  = Some (Z.of_N (Byte.to_N b)).
Proof. destruct b; reflexivity. Qed.





(** ** The exit status *)

Lemma init_nil_r (a b : list byte) :
  init a b =
  {| c0 := a ++ []; c1 := b ++ []; lineno := 1; charno := 1; printed := [] |}.
Proof. unfold init. now rewrite !app_nil_r. Qed.

(** In long mode two sources of equal length without zero bytes always end
    with exit status 0, whatever differences were listed. *)
Lemma long_mode_equal_length fl fnames p1 p2 :
  mode_of fl = Long ->
  List.length p1 = List.length p2 -> Forall nonzero p1 -> Forall nonzero p2 ->
  compare_loop fl fnames p1 p2
  = Some {| exit_code := 0; stderr := listing 1 p1 p2 |}.
Proof.
  intros Hm Hlen H1 H2.
  apply (compare_loop_exit _ _ _ _ (List.length p1 + 1)).
  rewrite iterate_add, init_nil_r.
  rewrite (iterate_listing fl fnames p1 Hm p2 [] [] 1 1 [] Hlen H1 H2).
  cbn [iterate app]. now rewrite iteration_both_zero.
Qed.

Lemma split_common (s1 : list byte) : forall s2,
  s1 = s2 \/
  exists p r1 r2, s1 = p ++ r1 /\ s2 = p ++ r2 /\ hd_error r1 <> hd_error r2.
Proof.
  induction s1 as [|a s1 IH]; intros [|b s2].
  - now left.
  - right. exists [], [], (b :: s2). repeat split. discriminate.
  - right. exists [], (a :: s1), []. repeat split. discriminate.
  - destruct (Byte.byte_eq_dec a b) as [<-|Hne].
    + destruct (IH s2) as [->|(p & r1 & r2 & -> & -> & Hd)]; [now left|].
      right. exists (a :: p), r1, r2. repeat split. exact Hd.
    + right. exists [], (a :: s1), (b :: s2). repeat split.
      intros E. injection E as E. contradiction.
Qed.

Lemma hd_nonzero_differ (r1 r2 : list byte) :
  Forall nonzero r1 -> Forall nonzero r2 -> hd_error r1 <> hd_error r2 ->
  hd x00 r1 <> hd x00 r2.
Proof.
  intros H1 H2 Hd. destruct r1 as [|a r1], r2 as [|b r2]; cbn [hd] in *.
  - contradiction.
  - apply Forall_inv in H2. intros E. now apply H2.
  - apply Forall_inv in H1. exact H1.
  - intros E. apply Hd. now rewrite E.
Qed.

(** In the modes that stop at the first difference, and on sources without
    zero bytes, the exit status is 0 exactly when the sources are equal and 1
    exactly when they are not. *)
Theorem exit_status_stopping_modes fl fnames s1 s2 :
  mode_of fl <> Long -> Forall nonzero s1 -> Forall nonzero s2 ->
  exists r, compare_loop fl fnames s1 s2 = Some r /\
            (exit_code r = 0 <-> s1 = s2) /\ (exit_code r = 1 <-> s1 <> s2).
Proof.
  intros Hm H1 H2.
  destruct (split_common s1 s2) as [<-|(p & r1 & r2 & -> & -> & Hd)].
  - exists {| exit_code := 0; stderr := [] |}. split.
    + apply (compare_loop_exit _ _ _ _ (List.length s1 + 1)).
      rewrite iterate_add, init_nil_r.
      rewrite iterate_common_prefix by exact H1.
      cbn [iterate]. now rewrite iteration_both_zero.
    + cbn. split; split; intros; try reflexivity; try discriminate.
      contradiction.
  - apply Forall_app in H1, H2. destruct H1 as [Hp H1], H2 as [_ H2].
    pose proof (hd_nonzero_differ r1 r2 H1 H2 Hd) as Hne.
    assert (Hs : p ++ r1 <> p ++ r2).
    { intros E. apply app_inv_head in E. apply Hd. now rewrite E. }
    assert (Hex : exists out,
      iterate fl fnames (List.length p + 1) (init (p ++ r1) (p ++ r2))
      = inr {| exit_code := 1; stderr := out |}).
    { rewrite iterate_add. unfold init.
      rewrite iterate_common_prefix by exact Hp. cbn [iterate].
      rewrite iteration_differ by exact Hne.
      destruct (mode_of fl); try contradiction; eexists; reflexivity. }
    destruct Hex as [out Hex]. eexists. split.
    + eapply compare_loop_exit. exact Hex.
    + cbn. split; split; intros; try reflexivity; try discriminate;
        try contradiction; assumption.
Qed.

(** C2, the behaviour of the code on an input where the claim fails: in long
    mode "hello" against "hellO" lists the difference at char 5 and then
    exits with status 0, although the sources differ. *)
Theorem C2_long_mode_exit_status :
  src "hello" <> src "hellO" /\
  compare_loop flags_l two_names (src "hello") (src "hellO")
  = Some {| exit_code := 0; stderr := [Fprintf (long_msg 5 x6f x4f)] |}.
Proof. split; [discriminate|reflexivity]. Qed.

(** C9, as amended.  Comparing "hello" and "hellO" with -l writes exactly
    one line, "       5 0157 0117": the char number 5 right-aligned in
    width 8, then the bytes 'o' and 'O' in octal, each with the leading 0 of
    the flag [#]. *)
Theorem C9_long_listing_of_hello fnames :
  option_map stderr (compare_loop flags_l fnames (src "hello") (src "hellO"))
  = Some [Fprintf ("       5 0157 0117" ++ Fmt.newline)%string].
Proof. reflexivity. Qed.

(** C9 as stated fails: the line written is not "       5 154 117", with or
    without the newline at its end, and the exit status is not 1. *)
Lemma C9_message_and_status_differ :
  exists r,
    compare_loop flags_l two_names (src "hello") (src "hellO") = Some r /\
    stderr r <> [Fprintf "       5 154 117"%string] /\
    stderr r <> [Fprintf ("       5 154 117" ++ Fmt.newline)%string] /\
    exit_code r <> 1.
Proof.
  eexists. split; [reflexivity|]. cbn. repeat split; discriminate.
Qed.

(** ** The reader and the command line *)

Lemma read_loop_sends_all (unread : list byte) (last : read_error) :
  read_loop unread last = (unread, last).
Proof.
  induction unread as [|b rest IH]; [reflexivity|].
  cbn [read_loop]. now rewrite IH.
Qed.

(** What emit sends: the bytes of the source from the offset on when the
    offset is positive, all of them otherwise. *)
Lemma emit_sends (rs : source) (offset : Z) :
  seek_failure rs = None ->
  emit rs offset = Sent (skipn (Z.to_nat offset) (data rs)) (stop rs).
Proof.
  intros Hseek. unfold emit. rewrite Hseek, !read_loop_sends_all.
  destruct (0 <? offset) eqn:E; [reflexivity|].
  apply Z.ltb_ge in E. now replace (Z.to_nat offset) with 0%nat by lia.
Qed.

(** Without a positive offset emit does not seek. *)
Lemma emit_from_start (rs : source) (offset : Z) :
  offset <= 0 -> emit rs offset = Sent (data rs) (stop rs).
Proof.
  intros H. unfold emit. apply Z.ltb_ge in H.
  now rewrite H, read_loop_sends_all.
Qed.

(** A wrong number of arguments is fatal: a log message and exit status 1,
    before any source is opened. *)
Theorem wrong_argument_count_is_fatal fl fnames w :
  (List.length fnames < 2 \/ 4 < List.length fnames)%nat ->
  main fl fnames w =
  fatalf ("expected two filenames (and one to two optional offsets), got "
            ++ Fmt.verb_d (Z.of_nat (List.length fnames))).
Proof.
  intros H. destruct fnames as [|a [|b [|c [|d [|e l]]]]];
    cbn [List.length] in H; try lia; reflexivity.
Qed.

(** C4, the behaviour of the code where the claim fails.  emit sends the
    same bytes and closes the channel whichever error ends the reading, and
    main drops the error that emit returns; a source whose reading fails
    after "hello" compares equal to the source "hello", with exit status 0
    and nothing printed. *)
Theorem C4_read_error_taken_for_end :
  (forall d last seek offset,
      emit {| data := d; stop := last; seek_failure := seek |} offset =
      match emit {| data := d; stop := EOF; seek_failure := seek |} offset with
      | Sent c _ => Sent c last
      | Fatal text => Fatal text
      end) /\
  main flags_default ["a"; "b"]%string
    (world_of [("a", failing_after_hello); ("b", file "hello")]%string)
  = Some {| exit_code := 0; stderr := [] |}.
Proof.
  split; [|reflexivity].
  intros d last seek offset. unfold emit. cbn [data stop seek_failure].
  rewrite !read_loop_sends_all.
  destruct (0 <? offset), seek; reflexivity.
Qed.

(** C7, the behaviour of the code where the claim fails.  An offset token
    that does not parse is reported on standard error, and then main
    returns: the exit status is 0.  No source is opened. *)
Theorem C7_bad_offset_exit_status fl w :
  main fl ["a"; "b"; "zz"]%string w
  = Some {| exit_code := 0;
            stderr := [Fprintf (bad_offset w "1" "zz" Strconv.ErrSyntax)] |} /\
  main fl ["a"; "b"; "zz"; "0"]%string w
  = Some {| exit_code := 0;
            stderr := [Logged (bad_offset w "1" "zz" Strconv.ErrSyntax)] |} /\
  main fl ["a"; "b"; "0"; "zz"]%string w
  = Some {| exit_code := 0;
            stderr := [Fprintf (bad_offset w "2" "zz" Strconv.ErrSyntax)] |}.
Proof. repeat split. Qed.



(** * Further properties of the loop *)

(** ** Identical sources *)

Lemma iterate_identical fl fnames (s : list byte) : forall ln ch out,
  exists n,
    iterate fl fnames n
      {| c0 := s; c1 := s; lineno := ln; charno := ch; printed := out |}
    = inr {| exit_code := 0; stderr := out |}.
Proof.
  induction s as [|b s IH]; intros ln ch out.
  - exists 1%nat. cbn [iterate]. now rewrite iteration_both_zero.
  - destruct (Byte.byte_eq_dec b x00) as [->|Hb].
    + exists 1%nat. cbn [iterate]. now rewrite iteration_both_zero.
    + destruct (IH (if Byte.eqb b x0a then incr64 ln else ln) (incr64 ch) out)
        as [n Hn].
      exists (S n). cbn [iterate]. now rewrite iteration_equal, Hn.
Qed.

(** A source compared with itself, or with a source of the same bytes, ends
    with exit status 0 and nothing printed, in every mode and whatever bytes
    it holds. *)
Theorem identical_sources_equal fl fnames (s : list byte) :
  compare_loop fl fnames s s = Some {| exit_code := 0; stderr := [] |}.
Proof.
  destruct (iterate_identical fl fnames s 1 1 []) as [n Hn].
  eapply compare_loop_exit. exact Hn.
Qed.

(** ** The flags count through the mode only *)

Lemma iteration_mode fl fl' fnames st :
  mode_of fl = mode_of fl' ->
  iteration fl fnames st = iteration fl' fnames st.
Proof.
  unfold mode_of, iteration. intros H.
  destruct (recv (c0 st)) as [b1 rest0], (recv (c1 st)) as [b2 rest1].
  destruct (silent fl), (line fl), (long fl),
    (silent fl'), (line fl'), (long fl');
    try discriminate; reflexivity.
Qed.

Lemma iterate_mode fl fl' fnames n : forall st,
  mode_of fl = mode_of fl' ->
  iterate fl fnames n st = iterate fl' fnames n st.
Proof.
  induction n as [|n IH]; intros st H; [reflexivity|].
  cbn [iterate]. rewrite (iteration_mode fl fl' fnames st H).
  destruct (iteration fl' fnames st); [now apply IH|reflexivity].
Qed.

(** Two settings of the flags that select the same mode give the same
    result: [-s] overrides [-L] and [-l], and [-L] overrides [-l]. *)
Theorem flags_priority fl fl' fnames ch0 ch1 :
  mode_of fl = mode_of fl' ->
  compare_loop fl fnames ch0 ch1 = compare_loop fl' fnames ch0 ch1.
Proof.
  intros H. unfold compare_loop, run. now rewrite (iterate_mode fl fl').
Qed.

Lemma flags_priority_witness :
  compare_loop {| long := true; line := true; silent := true |} two_names
    (src "hello") (src "hellO")
  = compare_loop flags_s two_names (src "hello") (src "hellO").
Proof.
  apply (flags_priority {| long := true; line := true; silent := true |}
           flags_s two_names (src "hello") (src "hellO")).
  reflexivity.
Defined.

(** ** Only the first two names are used *)

Lemma iteration_names fl fnames fnames' st :
  fname fnames 0 = fname fnames' 0 -> fname fnames 1 = fname fnames' 1 ->
  iteration fl fnames st = iteration fl fnames' st.
Proof.
  intros H0 H1. unfold iteration, differ_line_msg, differ_msg, eof_msg.
  now rewrite H0, H1.
Qed.

Lemma compare_loop_names fl fnames fnames' ch0 ch1 :
  fname fnames 0 = fname fnames' 0 -> fname fnames 1 = fname fnames' 1 ->
  compare_loop fl fnames ch0 ch1 = compare_loop fl fnames' ch0 ch1.
Proof.
  intros H0 H1. unfold compare_loop, run.
  generalize (S (Nat.max (List.length ch0) (List.length ch1))) as n.
  generalize (init ch0 ch1) as st.
  intros st n. revert st.
  induction n as [|n IH]; intros st; [reflexivity|].
  cbn [iterate]. rewrite (iteration_names fl fnames fnames' st H0 H1).
  destruct (iteration fl fnames' st) as [st'|r]; [apply IH|reflexivity].
Qed.

(** ** Exit status and amount of output *)

Lemma iteration_exit_code fl fnames st r :
  iteration fl fnames st = inr r -> exit_code r = 0 \/ exit_code r = 1.
Proof.
  unfold iteration, skip, exit_with.
  destruct (recv (c0 st)) as [b1 rest0], (recv (c1 st)) as [b2 rest1].
  destruct (negb (Byte.eqb b1 b2)), (silent fl), (line fl), (long fl),
    (Byte.eqb b1 x00), (Byte.eqb b2 x00);
    cbn [andb]; intros H; try discriminate; injection H as <-; cbn; auto.
Qed.

Lemma iterate_exit_code fl fnames n : forall st r,
  iterate fl fnames n st = inr r -> exit_code r = 0 \/ exit_code r = 1.
Proof.
  induction n as [|n IH]; intros st r H; [discriminate|].
  cbn [iterate] in H. destruct (iteration fl fnames st) as [st'|r'] eqn:E.
  - eapply IH. exact H.
  - injection H as <-. eapply iteration_exit_code. exact E.
Qed.

(** In a mode that stops at the first difference a pass that goes on prints
    nothing; a pass that exits leaves status 0 and prints nothing, or leaves
    status 1 and prints nothing in quiet mode and one line otherwise. *)
Lemma iteration_stopping fl fnames st :
  mode_of fl <> Long ->
  match iteration fl fnames st with
  | inl st' => printed st' = printed st
  | inr r =>
      (exit_code r = 0 /\ stderr r = printed st) \/
      (exit_code r = 1 /\
       if silent fl then stderr r = printed st
       else exists text, stderr r = printed st ++ [Fprintf text])
  end.
Proof.
  unfold mode_of, iteration, skip, exit_with. intros Hm.
  destruct (recv (c0 st)) as [b1 rest0], (recv (c1 st)) as [b2 rest1].
  destruct (negb (Byte.eqb b1 b2)), (silent fl), (line fl), (long fl),
    (Byte.eqb b1 x00), (Byte.eqb b2 x00);
    cbn [andb printed stderr exit_code]; try contradiction; auto;
    right; split; eauto.
Qed.

Lemma iterate_stopping fl fnames n : forall st r,
  mode_of fl <> Long ->
  iterate fl fnames n st = inr r ->
  (exit_code r = 0 /\ stderr r = printed st) \/
  (exit_code r = 1 /\
   if silent fl then stderr r = printed st
   else exists text, stderr r = printed st ++ [Fprintf text]).
Proof.
  induction n as [|n IH]; intros st r Hm H; [discriminate|].
  cbn [iterate] in H. pose proof (iteration_stopping fl fnames st Hm) as P.
  destruct (iteration fl fnames st) as [st'|r'].
  - rewrite <- P. now apply IH.
  - now injection H as <-.
Qed.

(** Outside long mode a run ends either with status 0 and no output, or with
    status 1 and, unless the mode is quiet, exactly one line of output;
    quiet mode never prints. *)
Theorem stopping_modes_output fl fnames ch0 ch1 r :
  mode_of fl <> Long ->
  compare_loop fl fnames ch0 ch1 = Some r ->
  (exit_code r = 0 /\ stderr r = []) \/
  (exit_code r = 1 /\
   if silent fl then stderr r = []
   else exists text, stderr r = [Fprintf text]).
Proof.
  intros Hm H. unfold compare_loop, run in H.
  destruct (iterate fl fnames _ (init ch0 ch1)) as [|r'] eqn:E; [discriminate|].
  injection H as ->.
  exact (iterate_stopping _ _ _ _ _ Hm E).
Qed.

Lemma stopping_modes_output_witness :
  (exit_code {| exit_code := 1; stderr := [] |} = 0 /\
   stderr {| exit_code := 1; stderr := [] |} = []) \/
  (exit_code {| exit_code := 1; stderr := [] |} = 1 /\
   stderr {| exit_code := 1; stderr := [] |} = []).
Proof.
  apply (stopping_modes_output flags_s two_names (src "ab") (src "abc")
           {| exit_code := 1; stderr := [] |}).
  - discriminate.
  - reflexivity.
Defined.

(** ** Swapping the two sources *)

Lemma byte_eqb_sym (a b : byte) : Byte.eqb a b = Byte.eqb b a.
Proof.
  destruct (Byte.byte_eq_dec a b) as [->|Hne]; [reflexivity|].
  rewrite (byte_eqb_neq a b Hne). symmetry. apply byte_eqb_neq.
  intros E. now apply Hne.
Qed.

Lemma iteration_swap fl fnames fnames' st st' :
  c0 st = c1 st' -> c1 st = c0 st' ->
  match iteration fl fnames st, iteration fl fnames' st' with
  | inl s, inl s' => c0 s = c1 s' /\ c1 s = c0 s'
  | inr r, inr r' => exit_code r = exit_code r'
  | _, _ => False
  end.
Proof.
  destruct st as [a b ln ch out], st' as [a' b' ln' ch' out'].
  cbn [c0 c1]. intros -> ->.
  unfold iteration, skip, exit_with. cbn [c0 c1 lineno charno printed].
  rewrite !recv_hd_tl. rewrite (byte_eqb_sym (hd x00 b') (hd x00 a')).
  destruct (negb (Byte.eqb (hd x00 a') (hd x00 b'))), (silent fl), (line fl),
    (long fl), (Byte.eqb (hd x00 a') x00), (Byte.eqb (hd x00 b') x00);
    cbn [andb c0 c1 exit_code]; auto.
Qed.

Lemma iterate_swap fl fnames fnames' n : forall st st',
  c0 st = c1 st' -> c1 st = c0 st' ->
  match iterate fl fnames n st, iterate fl fnames' n st' with
  | inl s, inl s' => c0 s = c1 s' /\ c1 s = c0 s'
  | inr r, inr r' => exit_code r = exit_code r'
  | _, _ => False
  end.
Proof.
  induction n as [|n IH]; intros st st' H0 H1; [now split|].
  cbn [iterate]. pose proof (iteration_swap fl fnames fnames' st st' H0 H1) as P.
  destruct (iteration fl fnames st) as [s|r],
    (iteration fl fnames' st') as [s'|r']; try contradiction.
  - destruct P as [P0 P1]. now apply IH.
  - exact P.
Qed.

(** The exit status does not depend on the order of the two sources, in any
    mode (the text printed does). *)
Theorem exit_status_symmetric fl fnames fnames' ch0 ch1 :
  option_map exit_code (compare_loop fl fnames ch0 ch1)
  = option_map exit_code (compare_loop fl fnames' ch1 ch0).
Proof.
  unfold compare_loop, run.
  rewrite (Nat.max_comm (List.length ch1) (List.length ch0)).
  pose proof (iterate_swap fl fnames fnames'
                (S (Nat.max (List.length ch0) (List.length ch1)))
                (init ch0 ch1) (init ch1 ch0) eq_refl eq_refl) as P.
  destruct (iterate fl fnames _ (init ch0 ch1)) as [s|r],
    (iterate fl fnames' _ (init ch1 ch0)) as [s'|r']; try contradiction.
  - reflexivity.
  - cbn. now rewrite P.
Qed.

(** ** Termination *)

(** The loop exits within one pass more than the longer source has bytes. *)
Theorem loop_exits_within_bound fl fnames ch0 ch1 :
  exists r,
    iterate fl fnames (S (Nat.max (List.length ch0) (List.length ch1)))
      (init ch0 ch1) = inr r /\
    (exit_code r = 0 \/ exit_code r = 1).
Proof.
  destruct (iterate_exits fl fnames
              (Nat.max (List.length ch0) (List.length ch1)) (init ch0 ch1))
    as [r Hr]; [reflexivity|].
  exists r. split; [exact Hr|]. eapply iterate_exit_code. exact Hr.
Qed.

(** ** The result is decided on a prefix *)

Lemma nth_tl (i : nat) (a : list byte) : nth i (tl a) x00 = nth (S i) a x00.
Proof. destruct a; [now destruct i|reflexivity]. Qed.

Lemma same_received_S (n : nat) (a a' : list byte) :
  same_received (S n) a a' ->
  hd x00 a = hd x00 a' /\ same_received n (tl a) (tl a').
Proof.
  intros H. split.
  - specialize (H 0%nat ltac:(lia)). now destruct a, a'.
  - intros i Hi. rewrite !nth_tl. apply H. lia.
Qed.

Lemma iteration_heads fl fnames a b a' b' ln ch out :
  hd x00 a = hd x00 a' -> hd x00 b = hd x00 b' ->
  match
    iteration fl fnames
      {| c0 := a; c1 := b; lineno := ln; charno := ch; printed := out |},
    iteration fl fnames
      {| c0 := a'; c1 := b'; lineno := ln; charno := ch; printed := out |}
  with
  | inl s, inl s' =>
      exists ln' ch' out',
        s = {| c0 := tl a; c1 := tl b; lineno := ln'; charno := ch';
               printed := out' |} /\
        s' = {| c0 := tl a'; c1 := tl b'; lineno := ln'; charno := ch';
                printed := out' |}
  | inr r, inr r' => r = r'
  | _, _ => False
  end.
Proof.
  intros Ha Hb. unfold iteration, skip, exit_with.
  cbn [c0 c1 lineno charno printed]. rewrite !recv_hd_tl, <- Ha, <- Hb.
  destruct (negb (Byte.eqb (hd x00 a) (hd x00 b))), (silent fl), (line fl),
    (long fl), (Byte.eqb (hd x00 a) x00), (Byte.eqb (hd x00 b) x00);
    cbn [andb]; eauto.
Qed.

Lemma iterate_local fl fnames n : forall a b a' b' ln ch out r,
  same_received n a a' -> same_received n b b' ->
  iterate fl fnames n
    {| c0 := a; c1 := b; lineno := ln; charno := ch; printed := out |} = inr r ->
  iterate fl fnames n
    {| c0 := a'; c1 := b'; lineno := ln; charno := ch; printed := out |} = inr r.
Proof.
  induction n as [|n IH]; intros a b a' b' ln ch out r Ha Hb H; [discriminate|].
  apply same_received_S in Ha, Hb. destruct Ha as [Ha Ta], Hb as [Hb Tb].
  cbn [iterate] in *.
  pose proof (iteration_heads fl fnames a b a' b' ln ch out Ha Hb) as P.
  destruct (iteration fl fnames {| c0 := a |}) as [s|r0],
    (iteration fl fnames {| c0 := a' |}) as [s'|r0']; try contradiction.
  - destruct P as (ln' & ch' & out' & -> & ->). now apply (IH _ _ _ _ _ _ _ _ Ta Tb).
  - now rewrite <- P.
Qed.

(** When the loop exits within [n] passes, only the bytes received in those
    passes count: any two sources that deliver the same bytes at the first
    [n] receives (zero bytes past their ends) give the same result. *)
Theorem result_decided_on_prefix fl fnames n a b a' b' r :
  iterate fl fnames n (init a b) = inr r ->
  same_received n a a' -> same_received n b b' ->
  compare_loop fl fnames a' b' = Some r.
Proof.
  intros H Ha Hb. apply (compare_loop_exit _ _ _ _ n).
  unfold init in *.
  exact (iterate_local _ _ _ _ _ _ _ _ _ _ _ Ha Hb H).
Qed.

Lemma result_decided_on_prefix_witness :
  compare_loop flags_L two_names (src "abXsome") (src "abYother")
  = Some {| exit_code := 1;
            stderr := [Fprintf (differ_line_msg two_names 3 1)] |}.
Proof.
  apply (result_decided_on_prefix flags_L two_names 3
           (src "abX") (src "abY") (src "abXsome") (src "abYother")).
  - reflexivity.
  - intros i Hi. destruct i as [|[|[|i]]]; try reflexivity. lia.
  - intros i Hi. destruct i as [|[|[|i]]]; try reflexivity. lia.
Defined.

Lemma same_result fl fnames a b a' b' :
  (forall i, nth i a x00 = nth i a' x00) ->
  (forall i, nth i b x00 = nth i b' x00) ->
  compare_loop fl fnames a' b' = compare_loop fl fnames a b.
Proof.
  intros Ha Hb.
  destruct (compare_loop_total fl fnames a b) as [r Hr]. rewrite Hr.
  unfold compare_loop, run in Hr.
  destruct (iterate fl fnames _ (init a b)) as [|r'] eqn:E; [discriminate|].
  injection Hr as ->.
  eapply result_decided_on_prefix; [exact E| |]; intros i _; auto.
Qed.

(** A zero byte at the same position in both sources acts as the end of
    both: the result is that of the two sources cut off there. *)
Theorem common_zero_byte_cuts_sources fl fnames a b t1 t2 :
  List.length a = List.length b ->
  compare_loop fl fnames (a ++ x00 :: t1) (b ++ x00 :: t2)
  = compare_loop fl fnames a b.
Proof.
  intros Hlen.
  destruct (loop_exits_within_bound fl fnames a b) as (r & Hr & _).
  assert (Hab : compare_loop fl fnames a b = Some r)
    by (unfold compare_loop, run; now rewrite Hr).
  rewrite Hab. rewrite <- Hlen, Nat.max_id in Hr.
  assert (Hcut : forall (l t : list byte),
    same_received (S (List.length l)) l (l ++ x00 :: t)).
  { intros l t i Hi. destruct (Nat.lt_ge_cases i (List.length l)) as [Hlt|Hge].
    - now rewrite app_nth1.
    - replace i with (List.length l) by lia.
      rewrite nth_overflow by lia. rewrite app_nth2 by lia.
      now rewrite Nat.sub_diag. }
  eapply result_decided_on_prefix; [exact Hr|apply Hcut|].
  rewrite Hlen. apply Hcut.
Qed.

Lemma common_zero_byte_cuts_sources_witness :
  compare_loop flags_l two_names
    (src "aXc" ++ x00 :: src "rest") (src "abc" ++ x00 :: src "other")
  = compare_loop flags_l two_names (src "aXc") (src "abc").
Proof.
  apply (common_zero_byte_cuts_sources flags_l two_names
           (src "aXc") (src "abc") (src "rest") (src "other")).
  reflexivity.
Defined.

(** Zero bytes at the end of a source are not seen: a source and the same
    source with zero bytes added at its end give the same result against any
    other source, in every mode. *)
Theorem trailing_zero_bytes_unseen fl fnames a b k :
  compare_loop fl fnames (a ++ repeat x00 k) b = compare_loop fl fnames a b /\
  compare_loop fl fnames b (a ++ repeat x00 k) = compare_loop fl fnames b a.
Proof.
  assert (H : forall i, nth i a x00 = nth i (a ++ repeat x00 k) x00).
  { intros i. destruct (Nat.lt_ge_cases i (List.length a)) as [Hlt|Hge].
    - now rewrite app_nth1.
    - rewrite nth_overflow by lia. rewrite app_nth2 by lia.
      now rewrite nth_repeat. }
  split; apply same_result; auto.
Qed.

(** ** Long mode on sources without zero bytes *)

(** In long mode, on sources whose bytes up to the length of the shorter one
    are not zero: sources of equal length end with status 0 after the listing
    of the positions where they differ; when one source goes on with a
    non-zero byte, the listing of the common length is followed by "EOF on"
    with the name of the shorter source, and the status is 1. *)
Theorem long_mode_outcome fl fnames p1 p2 b ext :
  mode_of fl = Long ->
  List.length p1 = List.length p2 -> Forall nonzero p1 -> Forall nonzero p2 ->
  b <> x00 ->
  compare_loop fl fnames p1 p2
  = Some {| exit_code := 0; stderr := listing 1 p1 p2 |} /\
  compare_loop fl fnames (p1 ++ b :: ext) p2
  = Some {| exit_code := 1;
            stderr := listing 1 p1 p2 ++ [Fprintf (eof_msg fnames 1)] |} /\
  compare_loop fl fnames p1 (p2 ++ b :: ext)
  = Some {| exit_code := 1;
            stderr := listing 1 p1 p2 ++ [Fprintf (eof_msg fnames 0)] |}.
Proof.
  intros Hm Hlen H1 H2 Hb.
  assert (Hb' : x00 <> b) by (intros E; now apply Hb).
  split; [now apply long_mode_equal_length|].
  split; apply (compare_loop_exit _ _ _ _ (List.length p1 + 1));
    rewrite iterate_add.
  - replace (init (p1 ++ b :: ext) p2)
      with {| c0 := p1 ++ b :: ext; c1 := p2 ++ []; lineno := 1; charno := 1;
              printed := [] |}
      by (unfold init; now rewrite app_nil_r).
    rewrite (iterate_listing fl fnames p1 Hm p2 _ _ 1 1 [] Hlen H1 H2).
    cbn [iterate app]. rewrite iteration_differ by exact Hb.
    rewrite Hm. cbn [hd]. now rewrite (byte_eqb_neq _ _ Hb).
  - replace (init p1 (p2 ++ b :: ext))
      with {| c0 := p1 ++ []; c1 := p2 ++ b :: ext; lineno := 1; charno := 1;
              printed := [] |}
      by (unfold init; now rewrite app_nil_r).
    rewrite (iterate_listing fl fnames p1 Hm p2 _ _ 1 1 [] Hlen H1 H2).
    cbn [iterate app]. rewrite iteration_differ by exact Hb'.
    now rewrite Hm.
Qed.

Lemma long_mode_outcome_witness :
  compare_loop flags_l two_names (src "aXc" ++ x64 :: src "e") (src "abc")
  = Some {| exit_code := 1;
            stderr := [Fprintf (long_msg 2 x58 x62);
                       Fprintf (eof_msg two_names 1)] |}.
Proof.
  apply (long_mode_outcome flags_l two_names (src "aXc") (src "abc") x64
           (src "e")).
  - reflexivity.
  - reflexivity.
  - repeat constructor; discriminate.
  - repeat constructor; discriminate.
  - discriminate.
Defined.

(** * Further properties of the reader and of main *)

(** emit is fatal exactly when the offset is positive and the source cannot
    seek; in every other case it sends the bytes of the source from the
    offset on, in their order, and returns the error that ended the
    reading. *)
Theorem emit_outcome (rs : source) (offset : Z) :
  (forall text,
      emit rs offset = Fatal text <->
      0 < offset /\ seek_failure rs = Some text) /\
  (forall c err,
      emit rs offset = Sent c err ->
      c = skipn (Z.to_nat offset) (data rs) /\ err = stop rs).
Proof.
  unfold emit. rewrite !read_loop_sends_all.
  destruct (0 <? offset) eqn:E.
  - apply Z.ltb_lt in E. destruct (seek_failure rs) as [t|]; split.
    + intros text. split.
      * intros H. injection H as ->. now split.
      * intros [_ H]. now injection H as ->.
    + intros c err H. discriminate.
    + intros text. split; [discriminate|]. intros [_ H]. discriminate.
    + intros c err H. injection H as <- <-. now split.
  - apply Z.ltb_ge in E. split.
    + intros text. split; [discriminate|]. intros [H _]. lia.
    + intros c err H. injection H as <- <-.
      now replace (Z.to_nat offset) with 0%nat by lia.
Qed.

Lemma emit_outcome_witness :
  emit {| data := src "hello"; stop := EOF;
          seek_failure := Some "illegal seek"%string |} 2
  = Fatal "illegal seek"%string.
Proof.
  apply (proj1 (emit_outcome
                  {| data := src "hello"; stop := EOF;
                     seek_failure := Some "illegal seek"%string |} 2)).
  split; [lia|reflexivity].
Defined.

(** An offset at or past the end of a source that can seek leaves nothing to
    send. *)
Lemma emit_past_end (rs : source) (offset : Z) :
  seek_failure rs = None -> Z.of_nat (List.length (data rs)) <= offset ->
  emit rs offset = Sent [] (stop rs).
Proof.
  intros Hs Hlen. rewrite (emit_sends rs offset Hs).
  rewrite skipn_all2 by lia. reflexivity.
Qed.



(** An offset that is zero or negative is the same as no offset. *)
Theorem nonpositive_offset_ignored fl w n1 n2 t1 o1 :
  Strconv.ParseInt t1 = inl o1 -> o1 <= 0 ->
  main fl [n1; n2; t1] w = main fl [n1; n2] w.
Proof.
  intros Hp Ho. unfold main, offsets. rewrite Hp. cbn [fname nth].
  destruct (openFile w n1) as [f1|]; [|reflexivity].
  destruct (openFile w n2) as [f2|]; [|reflexivity].
  rewrite !emit_from_start by lia.
  now apply compare_loop_names.
Qed.

Lemma nonpositive_offset_ignored_witness :
  main flags_default ["a"; "b"; "-3"]%string
    (world_of [("a", file "hello"); ("b", file "hellO")]%string)
  = main flags_default ["a"; "b"]%string
      (world_of [("a", file "hello"); ("b", file "hellO")]%string).
Proof.
  apply (nonpositive_offset_ignored flags_default
           (world_of [("a", file "hello"); ("b", file "hellO")]%string)
           "a"%string "b"%string "-3"%string (-3)).
  - reflexivity.
  - lia.
Defined.

(** A positive offset for a source that cannot seek is fatal: the error of
    Seek is logged and the exit status is 1, whatever the sources hold. *)
Theorem seek_failure_is_fatal fl w n1 n2 t1 o1 f1 f2 text :
  Strconv.ParseInt t1 = inl o1 -> 0 < o1 ->
  openFile w n1 = inl f1 -> openFile w n2 = inl f2 ->
  seek_failure f1 = Some text ->
  main fl [n1; n2; t1] w = fatalf text.
Proof.
  intros Hp Ho H1 H2 Hs. unfold main, offsets. rewrite Hp. cbn [fname nth].
  rewrite H1, H2. unfold emit at 1. rewrite Hs.
  apply Z.ltb_lt in Ho. now rewrite Ho.
Qed.

Lemma seek_failure_is_fatal_witness :
  main flags_default ["-"; "b"; "1"]%string
    (world_of [("b", file "hello")]%string)
  = fatalf "illegal seek"%string.
Proof.
  apply (seek_failure_is_fatal flags_default
           (world_of [("b", file "hello")]%string)
           "-"%string "b"%string "1"%string 1
           (stdin (world_of [("b", file "hello")]%string)) (file "hello")).
  - reflexivity.
  - lia.
  - reflexivity.
  - reflexivity.
  - reflexivity.
Defined.

(** When both offsets lie at or past the ends of their sources nothing is
    left to compare: exit status 0 and no output, in every mode. *)
Theorem offsets_past_end fl w n1 n2 t1 t2 o1 o2 f1 f2 :
  Strconv.ParseInt t1 = inl o1 -> Strconv.ParseInt t2 = inl o2 ->
  openFile w n1 = inl f1 -> openFile w n2 = inl f2 ->
  seek_failure f1 = None -> seek_failure f2 = None ->
  Z.of_nat (List.length (data f1)) <= o1 ->
  Z.of_nat (List.length (data f2)) <= o2 ->
  main fl [n1; n2; t1; t2] w = Some {| exit_code := 0; stderr := [] |}.
Proof.
  intros Hp1 Hp2 H1 H2 Hs1 Hs2 Hl1 Hl2.
  unfold main, offsets. rewrite Hp1, Hp2. cbn [fname nth].
  rewrite H1, H2, (emit_past_end f1 o1 Hs1 Hl1), (emit_past_end f2 o2 Hs2 Hl2).
  apply identical_sources_equal.
Qed.

Lemma offsets_past_end_witness :
  main flags_default ["a"; "b"; "5"; "0x10"]%string
    (world_of [("a", file "hello"); ("b", file "something")]%string)
  = Some {| exit_code := 0; stderr := [] |}.
Proof.
  apply (offsets_past_end flags_default
           (world_of [("a", file "hello"); ("b", file "something")]%string)
           "a"%string "b"%string "5"%string "0x10"%string 5 16
           (file "hello") (file "something"));
    try reflexivity; cbn; lia.
Defined.

(** A source that cannot be opened is fatal: the message names it and the
    exit status is 1.  For the first source this holds with any offsets that
    parse; for the second it is stated without offsets. *)
Theorem open_failure_is_fatal fl w :
  (forall fnames offs text,
      offsets w fnames = inl offs ->
      openFile w (fname fnames 0) = inr text ->
      main fl fnames w = fatalf (open_failed (fname fnames 0) text)) /\
  (forall n1 n2 f1 text,
      openFile w n1 = inl f1 -> openFile w n2 = inr text ->
      main fl [n1; n2] w = fatalf (open_failed n2 text)).
Proof.
  split.
  - intros fnames [o0 o1] text Ho H. unfold main. now rewrite Ho, H.
  - intros n1 n2 f1 text H1 H2. unfold main, offsets. cbn [fname nth].
    now rewrite H1, H2.
Qed.

Lemma open_failure_is_fatal_witness :
  main flags_default ["a"; "missing"]%string
    (world_of [("a", file "hello")]%string)
  = fatalf (open_failed "missing" "no such file or directory").
Proof.
  apply (proj2 (open_failure_is_fatal flags_default
                  (world_of [("a", file "hello")]%string))
           "a"%string "missing"%string (file "hello")
           "no such file or directory"%string); reflexivity.
Defined.



(** ** The octal fields of the long listing *)

(** What [%#.2o] prints for a byte starts with 0, has two to four
    characters, and read as octal digits gives the byte back. *)
Theorem octal_field_round_trip (b : byte) :
  (exists rest, Fmt.verb_sharp_2o b = String "0"%char rest) /\
  (2 <= String.length (Fmt.verb_sharp_2o b) <= 4)%nat /\
  Strconv.digits 8 (Fmt.verb_sharp_2o b) 0 = Some (Z.of_N (Byte.to_N b)).
Proof.
  destruct b; (split; [eexists; reflexivity|]);
    (split; [vm_compute; lia|reflexivity]).
Qed.

Lemma exit_status_stopping_modes_witness :
  exists r,
    compare_loop flags_L two_names (src "hello") (src "hellO") = Some r /\
    (exit_code r = 0 <-> src "hello" = src "hellO") /\
    (exit_code r = 1 <-> src "hello" <> src "hellO").
Proof.
  apply (exit_status_stopping_modes flags_L two_names (src "hello") (src "hellO")).
  - discriminate.
  - repeat constructor; discriminate.
  - repeat constructor; discriminate.
Defined.

Lemma wrong_argument_count_is_fatal_witness :
  main flags_default ["a"; "b"; "0"; "0"; "extra"]%string (world_of [])
  = fatalf "expected two filenames (and one to two optional offsets), got 5".
Proof.
  apply (wrong_argument_count_is_fatal flags_default
           ["a"; "b"; "0"; "0"; "extra"]%string (world_of [])).
  right. cbn. lia.
Defined.
